(** * clean-commits: the placeholder detector of [index.js]

    A shallow embedding of [detectVaraibles] together with the parts of
    ECMAScript it calls: the regular expression literal [/{{ \w+ }}/g],
    [String.prototype.match] on a global regular expression,
    [Array.isArray], [Array.prototype.map], [Array.prototype.filter],
    [typeof] and [String.prototype.slice]. *)

From Equations Require Import Equations.
From Stdlib Require Import String Ascii.
From Stdlib Require Import List Arith ZArith NArith Lia Bool.
Import ListNotations.

Set Implicit Arguments.
Set Warnings "-register-all".

(** ** Strings and values *)

(** A JavaScript string is a sequence of UTF-16 code units. *)
Abbreviation code_unit := N (only parsing).
Abbreviation jsstring := (list N) (only parsing).

(** An ASCII literal of the source, as a JavaScript string. *)
Definition js (s : string) : jsstring :=
  map N_of_ascii (list_ascii_of_string s).

(** The values that flow through [detectVaraibles]. *)
Inductive jsval :=
| JNull
| JString (s : jsstring)
| JArray (elems : list jsval).

(** Abrupt completions: the only exception the modelled built-ins raise. *)
Inductive error := TypeError.

Inductive completion (A : Type) :=
| Normal (a : A)
| Throw (e : error).
Arguments Normal {A} a.
Arguments Throw {A} e.

Definition bind {A B} (c : completion A) (k : A -> completion B) : completion B :=
  match c with
  | Normal a => k a
  | Throw e => Throw e
  end.

Notation "x <- c ;; k" := (bind c (fun x => k))
  (at level 61, c at next level, right associativity).

Fixpoint mapM {A B} (f : A -> completion B) (l : list A) : completion (list B) :=
  match l with
  | [] => Normal []
  | x :: l' => y <- f x ;; ys <- mapM f l' ;; Normal (y :: ys)
  end.

(** [typeof v], restricted to the values above. *)
Definition typeof (v : jsval) : string :=
  match v with
  | JString _ => "string"%string
  | JNull | JArray _ => "object"%string
  end.

Definition Array_isArray (v : jsval) : bool :=
  match v with
  | JArray _ => true
  | _ => false
  end.

(** ToBoolean: [null] and the empty string are falsy, objects are truthy. *)
Definition ToBoolean (v : jsval) : bool :=
  match v with
  | JNull => false
  | JString [] => false
  | JString (_ :: _) => true
  | JArray _ => true
  end.

(** ** Regular expressions *)

Module RegExp.

(** The fragment of the pattern language that [/{{ \w+ }}/] uses: a
    sequence of terms, each a single-character atom that is taken once or
    under the greedy quantifier [+]. *)
Inductive atom :=
| Char (c : code_unit)
| WordClass.

Inductive term :=
| Once (a : atom)
| OneOrMore (a : atom).

Definition pattern := list term.

(** [\w] without the [u] and [i] flags: [a-z], [A-Z], [0-9] and [_]. *)
Definition is_word_char (c : code_unit) : bool :=
  ((97 <=? c) && (c <=? 122) || (65 <=? c) && (c <=? 90)
   || (48 <=? c) && (c <=? 57) || (c =? 95))%N.

Definition atom_matches (a : atom) (c : code_unit) : bool :=
  match a with
  | Char c' => (c =? c')%N
  | WordClass => is_word_char c
  end.

(** The backtracking matcher, anchored at the head of [str]: the number of
    code units of the first match in priority order, if there is one.
    [iterate a k] is [a+] followed by the continuation [k]: after one [a],
    one more iteration is tried before [k] (greedy). *)
Fixpoint iterate (a : atom) (k : jsstring -> option nat) (str : jsstring)
  : option nat :=
  match str with
  | c :: str' =>
      if atom_matches a c then
        match iterate a k str' with
        | Some n => Some (S n)
        | None => option_map S (k str')
        end
      else None
  | [] => None
  end.

Fixpoint match_here (p : pattern) (str : jsstring) {struct p} : option nat :=
  match p with
  | [] => Some 0
  | Once a :: p' =>
      match str with
      | c :: str' =>
          if atom_matches a c then option_map S (match_here p' str') else None
      | [] => None
      end
  | OneOrMore a :: p' => iterate a (match_here p') str
  end.

(** The matcher at index [i] of [str]: the end index of the match. *)
Definition matcher (p : pattern) (str : jsstring) (i : nat) : option nat :=
  option_map (Nat.add i) (match_here p (skipn i str)).

(** The loop of RegExpBuiltinExec: the first index from [lastIndex] on at
    which the matcher succeeds, with the end index of the match there;
    failure once [lastIndex] exceeds the length. *)
Equations? scan (p : pattern) (str : jsstring) (lastIndex : nat)
  : option (nat * nat) by wf (length str + 1 - lastIndex) lt :=
scan p str lastIndex with le_gt_dec lastIndex (length str) := {
  | right _ => None
  | left Hle with matcher p str lastIndex := {
      | Some e => Some (lastIndex, e)
      | None => scan p str (lastIndex + 1) } }.
Proof. lia. Qed.

(** A match never runs past the end of the string; the global loop below
    terminates by this bound. *)
Lemma match_here_bound (p : pattern) :
  forall str n, match_here p str = Some n -> n <= length str.
Proof.
  induction p as [|[a|a] p IH]; simpl; intros str n H.
  - injection H as <-. lia.
  - destruct str as [|c str]; [discriminate|].
    destruct (atom_matches a c); [|discriminate].
    destruct (match_here p str) as [m|] eqn:E; [|discriminate].
    injection H as <-. apply IH in E. simpl. lia.
  - revert n H. induction str as [|c str IHs]; simpl; intros n H; [discriminate|].
    destruct (atom_matches a c); [|discriminate].
    destruct (iterate a (match_here p) str) as [m|] eqn:E.
    + injection H as <-. specialize (IHs m eq_refl). lia.
    + destruct (match_here p str) as [m|] eqn:E'; [|discriminate].
      injection H as <-. apply IH in E'. lia.
Qed.

Lemma matcher_bound (p : pattern) (str : jsstring) (i e : nat) :
  i <= length str -> matcher p str i = Some e -> i <= e <= length str.
Proof.
  unfold matcher. intros Hi H.
  destruct (match_here p (skipn i str)) as [n|] eqn:E; [|discriminate].
  injection H as <-. apply match_here_bound in E.
  rewrite length_skipn in E. lia.
Qed.

Lemma scan_bound (p : pattern) (str : jsstring) (lastIndex i e : nat) :
  scan p str lastIndex = Some (i, e) ->
  lastIndex <= i /\ i <= e /\ e <= length str.
Proof.
  funelim (scan p str lastIndex); intros H'; try discriminate.
  - injection H' as <- <-.
    match goal with
    | Hm : matcher _ _ _ = Some _ |- _ =>
        apply matcher_bound in Hm; [lia | assumption]
    end.
  - match goal with
    | IH : forall i e, _ = _ -> _ |- _ => specialize (IH _ _ H'); lia
    end.
Qed.

(** The result of a call, kept together with the equation that says so. *)
Definition inspect {A} (a : A) : {b : A | a = b} := exist _ a eq_refl.

(** The code units of [str] from index [from] up to index [to]. *)
Definition substring (str : jsstring) (from to : nat) : jsstring :=
  firstn (to - from) (skipn from str).

(** The loop of [RegExp.prototype[Symbol.match]] for a global regular
    expression, from [lastIndex] on: every match is appended, the next
    search starts where the match ended, and after an empty match
    [lastIndex] is advanced by one. *)
Equations? match_all (p : pattern) (str : jsstring) (lastIndex : nat)
  : list jsstring by wf (length str + 1 - lastIndex) lt :=
match_all p str lastIndex with inspect (scan p str lastIndex) := {
  | exist _ None _ => []
  | exist _ (Some (i, e)) Hscan =>
      substring str i e
        :: match_all p str (if e =? i then e + 1 else e) }.
Proof.
  apply scan_bound in Hscan.
  destruct (Nat.eqb_spec e i); lia.
Qed.

(** A regular expression object: its pattern, the [g] flag and the mutable
    [lastIndex] property. *)
Record object := mkRegExp {
  source : pattern;
  global : bool;
  lastIndex : nat
}.

Definition set_lastIndex (R : object) (n : nat) : object :=
  mkRegExp (source R) (global R) n.

(** [RegExp.prototype[Symbol.match]]. With the [g] flag [lastIndex] is set
    to 0, all matches are collected, and the failing last call of
    RegExpBuiltinExec leaves [lastIndex] at 0; the result is [null] when
    nothing matched. Without it the match of the first successful index is
    returned (the pattern fragment has no capture groups) and [lastIndex]
    is not written. *)
Definition Symbol_match (R : object) (str : jsstring) : jsval * object :=
  if global R then
    match match_all (source R) str 0 with
    | [] => (JNull, set_lastIndex R 0)
    | A => (JArray (map JString A), set_lastIndex R 0)
    end
  else
    match scan (source R) str 0 with
    | None => (JNull, R)
    | Some (i, e) => (JArray [JString (substring str i e)], R)
    end.

End RegExp.

(** ** The heap of regular expression objects *)

(** Evaluating a regular expression literal allocates a new object; a
    reference is the index of its cell. *)
Definition ref := nat.
Definition heap := list RegExp.object.

Definition alloc (R : RegExp.object) (h : heap) : ref * heap :=
  (length h, h ++ [R]).

Definition deref (h : heap) (r : ref) : option RegExp.object :=
  nth_error h r.

Fixpoint store (h : heap) (r : ref) (R : RegExp.object) : heap :=
  match h, r with
  | [], _ => []
  | _ :: h', 0 => R :: h'
  | R' :: h', S r' => R' :: store h' r' R
  end.

(** ** Built-in methods *)

(** [this.match(regexp)]: a property access on [null] and a call of the
    property [match] that an array does not have both throw a TypeError; on
    a string the call is forwarded to [regexp[Symbol.match]], which updates
    the regular expression object in place. *)
Definition String_prototype_match (this : jsval) (regexp : ref) (h : heap)
  : completion jsval * heap :=
  match this with
  | JString str =>
      match deref h regexp with
      | Some R =>
          let '(result, R') := RegExp.Symbol_match R str in
          (Normal result, store h regexp R')
      | None => (Throw TypeError, h)
      end
  | JNull | JArray _ => (Throw TypeError, h)
  end.

(** The [length] property of strings and arrays. *)
Definition get_length (this : jsval) : completion Z :=
  match this with
  | JString s => Normal (Z.of_nat (length s))
  | JArray l => Normal (Z.of_nat (length l))
  | JNull => Throw TypeError
  end.

(** The index arithmetic shared by [String.prototype.slice] and
    [Array.prototype.slice]: negative indices count from the end, both are
    clamped to the length, and an empty span gives an empty result. *)
Definition slice {A} (l : list A) (start end_ : Z) : list A :=
  let len := Z.of_nat (length l) in
  let from := if (start <? 0)%Z then Z.max (len + start) 0 else Z.min start len in
  let to := if (end_ <? 0)%Z then Z.max (len + end_) 0 else Z.min end_ len in
  let span := Z.max (to - from) 0 in
  firstn (Z.to_nat span) (skipn (Z.to_nat from) l).

Definition prototype_slice (this : jsval) (start end_ : Z) : completion jsval :=
  match this with
  | JString s => Normal (JString (slice s start end_))
  | JArray l => Normal (JArray (slice l start end_))
  | JNull => Throw TypeError
  end.

(** [this.map(callbackfn)] and [this.filter(callbackfn)]: only arrays have
    these methods. *)
Definition Array_prototype_map (this : jsval) (callbackfn : jsval -> completion jsval)
  : completion jsval :=
  match this with
  | JArray l => l' <- mapM callbackfn l ;; Normal (JArray l')
  | JNull | JString _ => Throw TypeError
  end.

Fixpoint filterM (callbackfn : jsval -> completion jsval) (l : list jsval)
  : completion (list jsval) :=
  match l with
  | [] => Normal []
  | x :: l' =>
      selected <- callbackfn x ;;
      kept <- filterM callbackfn l' ;;
      Normal (if ToBoolean selected then x :: kept else kept)
  end.

Definition Array_prototype_filter (this : jsval) (callbackfn : jsval -> completion jsval)
  : completion jsval :=
  match this with
  | JArray l => l' <- filterM callbackfn l ;; Normal (JArray l')
  | JNull | JString _ => Throw TypeError
  end.

(** ** The source *)

(** The literal [/{{ \w+ }}/g]: two [{], a space, [\w+], a space, two [}]
    (a [{] that does not open a quantifier is a literal character). *)
Definition variableDetectorRegx_pattern : RegExp.pattern :=
  [RegExp.Once (RegExp.Char 123); RegExp.Once (RegExp.Char 123);
   RegExp.Once (RegExp.Char 32);
   RegExp.OneOrMore RegExp.WordClass;
   RegExp.Once (RegExp.Char 32);
   RegExp.Once (RegExp.Char 125); RegExp.Once (RegExp.Char 125)]%N.

Definition variableDetectorRegx_literal : RegExp.object :=
  RegExp.mkRegExp variableDetectorRegx_pattern true 0.

(** [function detectVaraibles(text)], run on a heap. *)
Definition detectVaraibles (text : jsval) (h : heap) : completion jsval * heap :=
  let '(variableDetectorRegx, h) := alloc variableDetectorRegx_literal h in
  let value := text in
  match String_prototype_match value variableDetectorRegx h with
  | (Throw e, h) => (Throw e, h)
  | (Normal matches, h) =>
      if Array_isArray matches then
        (mapped <- Array_prototype_map matches (fun match_ =>
             if String.eqb (typeof match_) "string" then
               len <- get_length match_ ;;
               prototype_slice match_ 3 (len - 3)
             else Normal JNull) ;;
         Array_prototype_filter mapped (fun match_ => Normal match_), h)
      else (Normal matches, h)
  end.

(** ** The listener of the source *)

(** What the script can touch: the regular expression objects and the
    console, as the arguments of each call of [console.log], oldest first. *)
Record world := mkWorld {
  objects : heap;
  console : list (list jsval)
}.

Definition console_log (args : list jsval) (w : world) : world :=
  mkWorld (objects w) (console w ++ [args]).

(** An event, as far as the listener reads it: its type and
    [e.target.value]. *)
Record Event := mkEvent {
  type : jsstring;
  target_value : jsval
}.

Definition handler := Event -> world -> completion unit * world.

(** An element with its event listeners, in the order of registration. *)
Record element := mkElement {
  listeners : list (jsstring * handler)
}.

Definition addEventListener (el : element) (ty : jsstring) (callback : handler)
  : element :=
  mkElement (listeners el ++ [(ty, callback)]).

(** Dispatch: the listeners of the type of the event run in order; what
    one of them throws is reported and does not stop the others. *)
Fixpoint invoke (ls : list (jsstring * handler)) (e : Event) (w : world) : world :=
  match ls with
  | [] => w
  | (ty, callback) :: ls' =>
      if list_eq_dec N.eq_dec ty (type e)
      then invoke ls' e (snd (callback e w))
      else invoke ls' e w
  end.

Definition dispatchEvent (el : element) (e : Event) (w : world) : world :=
  invoke (listeners el) e w.

(** [function (e) { let variables = detectVaraibles(e.target.value);
    console.log("detection: ", variables); }] *)
Definition listener : handler := fun e w =>
  match detectVaraibles (target_value e) (objects w) with
  | (Throw err, h) => (Throw err, mkWorld h (console w))
  | (Normal variables, h) =>
      (Normal tt,
       console_log [JString (js "detection: "); variables] (mkWorld h (console w)))
  end.

(** The top level of the script, given what
    [document.getElementById("text-editor")] returned ([None] for [null]):
    the call of [addEventListener] on [null] throws. *)
Definition script (texteditor : option element) : completion element :=
  match texteditor with
  | Some el => Normal (addEventListener el (js "input") listener)
  | None => Throw TypeError
  end.

(** The user edits the text: one [input] event for each content in turn. *)
Definition input_events (el : element) (values : list jsval) (w : world) : world :=
  fold_left (fun w v => dispatchEvent el (mkEvent (js "input") v) w) values w.

(** ** The vocabulary of the specification *)

(** A variable name: one or more word characters. *)
Definition identifier (w : jsstring) : Prop :=
  w <> [] /\ Forall (fun c => RegExp.is_word_char c = true) w.

(** A well-formed placeholder: the name between [{{ ] and [ }}]. *)
Definition placeholder (w : jsstring) : jsstring :=
  js "{{ " ++ w ++ js " }}".

(** The input has a substring that is a well-formed placeholder. *)
Definition has_placeholder (s : jsstring) : Prop :=
  exists pre w post, identifier w /\ s = pre ++ placeholder w ++ post.

(** The longest prefix of word characters, and what follows it. *)
Fixpoint take_word (s : jsstring) : jsstring :=
  match s with
  | c :: s' => if RegExp.is_word_char c then c :: take_word s' else []
  | [] => []
  end.

Fixpoint drop_word (s : jsstring) : jsstring :=
  match s with
  | c :: s' => if RegExp.is_word_char c then drop_word s' else s
  | [] => []
  end.

(** [s] without its prefix [pre], when it has that prefix. *)
Fixpoint strip_prefix (pre s : jsstring) : option jsstring :=
  match pre, s with
  | [], _ => Some s
  | c :: pre', d :: s' => if (d =? c)%N then strip_prefix pre' s' else None
  | _ :: _, [] => None
  end.

(** Whether a well-formed placeholder starts at the head of [s], and its
    length if so: read off deterministically, without backtracking. *)
Definition placeholder_at (s : jsstring) : option nat :=
  match strip_prefix (js "{{ ") s with
  | Some s' =>
      match take_word s', strip_prefix (js " }}") (drop_word s') with
      | _ :: _, Some _ => Some (6 + length (take_word s'))
      | _, _ => None
      end
  | None => None
  end.

(** What the extractor makes of the matches that [match] found. *)
Definition strip (m : jsstring) : jsstring :=
  slice m 3 (Z.of_nat (length m) - 3).

Definition extracted (A : list jsstring) : jsval :=
  match A with
  | [] => JNull
  | _ :: _ => JArray (filter ToBoolean (map (fun m => JString (strip m)) A))
  end.

(** The result for the variable names [ws], in this order. *)
Definition names (ws : list jsstring) : jsval :=
  match ws with
  | [] => JNull
  | _ :: _ => JArray (map JString ws)
  end.

(** A text with placeholders: each piece is some text followed by the
    placeholder of a name, and [tail] is the text after the last one. *)
Definition render (pieces : list (jsstring * jsstring)) (tail : jsstring) : jsstring :=
  fold_right (fun tw s => fst tw ++ placeholder (snd tw) ++ s) tail pieces.

(** The pieces name the placeholders of the text, all of them: the names
    are identifiers and the texts in between contain no placeholder. *)
Definition well_formed_piece (tw : jsstring * jsstring) : Prop :=
  ~ has_placeholder (fst tw) /\ identifier (snd tw).

(** The malformed placeholders: a name without the padding spaces, and
    two names with a space between them. *)
Inductive malformed : jsstring -> Prop :=
| no_padding w :
    identifier w -> malformed (js "{{" ++ w ++ js "}}")
| inner_space w1 w2 :
    identifier w1 -> identifier w2 ->
    malformed (js "{{ " ++ w1 ++ js " " ++ w2 ++ js " }}").

(** A placeholder inside one more pair of braces. *)
Definition extra_braces (w : jsstring) : jsstring :=
  js "{" ++ placeholder w ++ js "}".

(** Text without an opening brace. *)
Definition brace_free (t : jsstring) : Prop :=
  Forall (fun c => c <> 123%N) t.

(** No placeholder starts inside [seg], whatever follows it. *)
Definition inert (seg : jsstring) : Prop :=
  forall k, k < length seg ->
    forall rest, placeholder_at (skipn k seg ++ rest) = None.

(** The elements of the array that the extractor returned, none for
    [null]. *)
Definition elements (r : completion jsval) : list jsval :=
  match r with
  | Normal (JArray l) => l
  | _ => []
  end.

(** What an [input] event with the content [v] adds to the console: the
    label and the result of the extractor on [v] alone, or nothing when the
    extractor throws. *)
Definition detection (v : jsval) : list (list jsval) :=
  match fst (detectVaraibles v []) with
  | Normal variables => [[JString (js "detection: "); variables]]
  | Throw _ => []
  end.

(** A start and an end index, moved [n] to the right. *)
Definition shift (n : nat) (r : nat * nat) : nat * nat := (n + fst r, n + snd r).

(** Deciding [has_placeholder] and [identifier]. *)
Fixpoint contains_placeholder (s : jsstring) : bool :=
  match placeholder_at s, s with
  | Some _, _ => true
  | None, [] => false
  | None, _ :: s' => contains_placeholder s'
  end.

Definition is_identifier (w : jsstring) : bool :=
  match w with
  | [] => false
  | _ :: _ => forallb RegExp.is_word_char w
  end.

(** ** The matcher on the pattern of the source *)

Section Matcher.

Import RegExp.

Lemma take_drop_word (s : jsstring) : take_word s ++ drop_word s = s.
Proof.
  induction s as [|c s IH]; simpl; [reflexivity|].
  destruct (is_word_char c); simpl; [now rewrite IH | reflexivity].
Qed.

Lemma take_word_Forall (s : jsstring) :
  Forall (fun c => is_word_char c = true) (take_word s).
Proof.
  induction s as [|c s IH]; simpl; [constructor|].
  destruct (is_word_char c) eqn:E; constructor; assumption.
Qed.

(** The word prefix of a word followed by a non-word character. *)
Lemma take_word_app (w : jsstring) (c : code_unit) (r : jsstring) :
  Forall (fun c => is_word_char c = true) w -> is_word_char c = false ->
  take_word (w ++ c :: r) = w /\ drop_word (w ++ c :: r) = c :: r.
Proof.
  intros Hw Hc. induction Hw as [|d w Hd Hw IH]; simpl.
  - rewrite Hc. split; reflexivity.
  - rewrite Hd. destruct IH as [-> ->]. split; reflexivity.
Qed.

(** Greedy iteration is deterministic when the continuation rejects every
    string that begins with one more character of the class: the whole run
    of [\w] is consumed and the continuation sees what follows it. *)
Lemma iterate_word (k : jsstring -> option nat) :
  (forall c s, is_word_char c = true -> k (c :: s) = None) ->
  forall s,
    iterate WordClass k s =
    match take_word s with
    | [] => None
    | _ :: _ => option_map (Nat.add (length (take_word s))) (k (drop_word s))
    end.
Proof.
  intros Hk. induction s as [|c s IH]; simpl; [reflexivity|].
  destruct (is_word_char c) eqn:Hc; [|reflexivity].
  rewrite IH. simpl.
  destruct (take_word s) as [|d w] eqn:Hw.
  - destruct s as [|d s]; simpl in *; [reflexivity|].
    destruct (is_word_char d); [discriminate | reflexivity].
  - destruct (k (drop_word s)) as [m|] eqn:Hm; simpl; [reflexivity|].
    rewrite <- (take_drop_word s), Hw. simpl.
    rewrite Hk; [reflexivity|].
    pose proof (take_word_Forall s) as F. rewrite Hw in F.
    now inversion F.
Qed.

Lemma strip_prefix_spec (pre s r : jsstring) :
  strip_prefix pre s = Some r <-> s = pre ++ r.
Proof.
  revert s. induction pre as [|c pre IH]; intros s; simpl.
  - split; [intros [= ->] | intros ->]; reflexivity.
  - destruct s as [|d s]; [split; discriminate|].
    destruct (N.eqb_spec d c) as [->|Hne].
    + rewrite IH. split; [intros -> | intros [= ->]]; reflexivity.
    + split; [discriminate | intros [= -> _]; congruence].
Qed.

(** A run of literal characters in a pattern strips that prefix. *)
Lemma match_here_literal (lit : jsstring) (p : pattern) (s : jsstring) :
  match_here (map (fun c => Once (Char c)) lit ++ p) s =
  match strip_prefix lit s with
  | Some s' => option_map (Nat.add (length lit)) (match_here p s')
  | None => None
  end.
Proof.
  revert s. induction lit as [|c lit IH]; intros s.
  - simpl. destruct (match_here p s); reflexivity.
  - cbn [map app match_here atom_matches strip_prefix].
    destruct s as [|d s]; [reflexivity|].
    destruct (d =? c)%N; [|reflexivity].
    rewrite IH. destruct (strip_prefix lit s) as [s'|]; [|reflexivity].
    destruct (match_here p s'); reflexivity.
Qed.

Lemma variableDetectorRegx_pattern_eq :
  variableDetectorRegx_pattern =
  map (fun c => Once (Char c)) (js "{{ ")
    ++ OneOrMore WordClass :: map (fun c => Once (Char c)) (js " }}") ++ [].
Proof. reflexivity. Qed.

(** The backtracking matcher on [/{{ \w+ }}/] is [placeholder_at]. *)
Lemma match_here_placeholder_at (s : jsstring) :
  match_here variableDetectorRegx_pattern s = placeholder_at s.
Proof.
  rewrite variableDetectorRegx_pattern_eq, match_here_literal.
  unfold placeholder_at.
  destruct (strip_prefix (js "{{ ") s) as [s'|]; [|reflexivity].
  cbn [match_here].
  rewrite iterate_word.
  - destruct (take_word s') as [|c w]; [reflexivity|].
    rewrite match_here_literal.
    destruct (strip_prefix (js " }}") (drop_word s')); [|reflexivity].
    cbn. f_equal. lia.
  - intros c r Hc. rewrite match_here_literal.
    cbn. destruct (N.eqb_spec c 32) as [->|]; [discriminate | reflexivity].
Qed.

Lemma scan_unfold (p : pattern) (s : jsstring) (i : nat) :
  scan p s i =
  if i <=? length s then
    match matcher p s i with
    | Some e => Some (i, e)
    | None => scan p s (i + 1)
    end
  else None.
Proof.
  funelim (scan p s i).
  - destruct (Nat.leb_spec lastIndex0 (length str)); [lia | reflexivity].
  - destruct (Nat.leb_spec lastIndex0 (length str)); [|lia].
    now rewrite Heq.
  - destruct (Nat.leb_spec lastIndex0 (length str)); [|lia].
    now rewrite Heq.
Qed.

Lemma match_all_unfold (p : pattern) (s : jsstring) (i : nat) :
  match_all p s i =
  match scan p s i with
  | Some (j, e) => substring s j e :: match_all p s (if e =? j then e + 1 else e)
  | None => []
  end.
Proof.
  funelim (match_all p s i).
  - now rewrite Hscan.
  - match goal with E : scan _ _ _ = None |- _ => now rewrite E end.
Qed.

(** Scanning passes over indices at which the matcher fails, stops at the
    first at which it succeeds, and fails beyond the end of the string. *)
Lemma scan_skip (p : pattern) (s : jsstring) (k : nat) :
  k <= length s + 1 ->
  forall d i, k = i + d ->
    (forall j, i <= j < k -> matcher p s j = None) ->
    scan p s i = scan p s k.
Proof.
  intros Hk. induction d as [|d IH]; intros i -> Hnone.
  - now rewrite Nat.add_0_r.
  - rewrite scan_unfold.
    destruct (Nat.leb_spec i (length s)); [|lia].
    rewrite Hnone by lia.
    apply IH; [lia|]. intros j Hj. apply Hnone. lia.
Qed.

Lemma scan_hit (p : pattern) (s : jsstring) (i e : nat) :
  i <= length s -> matcher p s i = Some e -> scan p s i = Some (i, e).
Proof.
  intros Hi Hm. rewrite scan_unfold, Hm.
  destruct (Nat.leb_spec i (length s)); [reflexivity | lia].
Qed.

Lemma scan_end (p : pattern) (s : jsstring) (i : nat) :
  length s < i -> scan p s i = None.
Proof.
  intros Hi. rewrite scan_unfold.
  destruct (Nat.leb_spec i (length s)); [lia | reflexivity].
Qed.

Lemma scan_none (p : pattern) (s : jsstring) (i : nat) :
  (forall j, i <= j <= length s -> matcher p s j = None) ->
  scan p s i = None.
Proof.
  intros Hnone.
  destruct (le_gt_dec i (length s + 1)) as [Hle|Hgt].
  - rewrite (@scan_skip p s (length s + 1) (le_n _) (length s + 1 - i) i).
    + apply scan_end. lia.
    + lia.
    + intros j Hj. apply Hnone. lia.
  - apply scan_end. lia.
Qed.

(** What [scan] returns is the leftmost successful index. *)
Lemma scan_some (p : pattern) (s : jsstring) (i j e : nat) :
  scan p s i = Some (j, e) ->
  matcher p s j = Some e /\ forall k, i <= k < j -> matcher p s k = None.
Proof.
  funelim (scan p s i); intros H'; try discriminate.
  - injection H' as <- <-. split; [assumption | intros k Hk; lia].
  - match goal with
    | IH : forall j e, _ = _ -> _ |- _ => destruct (IH _ _ H') as [Hm Hn]
    end.
    split; [assumption|]. intros k Hk.
    destruct (Nat.eq_dec k lastIndex0) as [->|]; [assumption | apply Hn; lia].
Qed.

(** *** Placeholders and [placeholder_at] *)

Lemma placeholder_unfold (w : jsstring) :
  placeholder w = (123 :: 123 :: 32 :: w ++ [32; 125; 125])%N.
Proof. reflexivity. Qed.

Lemma placeholder_length (w : jsstring) : length (placeholder w) = 6 + length w.
Proof. rewrite placeholder_unfold. simpl. rewrite length_app. simpl. lia. Qed.

Lemma placeholder_at_placeholder (w rest : jsstring) :
  identifier w -> placeholder_at (placeholder w ++ rest) = Some (6 + length w).
Proof.
  intros [Hne Hw]. unfold placeholder_at, placeholder.
  rewrite <- !app_assoc.
  rewrite (proj2 (strip_prefix_spec (js "{{ ") _ _) eq_refl).
  destruct (@take_word_app w 32%N ((125 :: 125 :: rest)%N) Hw eq_refl) as [Ht Hd].
  change (js " }}" ++ rest) with (32 :: 125 :: 125 :: rest)%N.
  rewrite Ht, Hd.
  destruct w as [|c w]; [congruence | reflexivity].
Qed.

Lemma placeholder_at_inv (s : jsstring) (n : nat) :
  placeholder_at s = Some n ->
  exists w rest, identifier w /\ s = placeholder w ++ rest /\ n = 6 + length w.
Proof.
  unfold placeholder_at. intros H.
  destruct (strip_prefix (js "{{ ") s) as [s'|] eqn:Hs; [|discriminate].
  apply strip_prefix_spec in Hs.
  destruct (take_word s') as [|c w] eqn:Hw; [discriminate|].
  destruct (strip_prefix (js " }}") (drop_word s')) as [r|] eqn:Hr; [|discriminate].
  apply strip_prefix_spec in Hr. injection H as <-.
  exists (c :: w), r. repeat split.
  - discriminate.
  - rewrite <- Hw. apply take_word_Forall.
  - unfold placeholder. rewrite <- !app_assoc, <- Hr, <- Hw, take_drop_word.
    exact Hs.
Qed.

(** The matcher at an index, through [placeholder_at]. *)
Lemma matcher_placeholder_at (s : jsstring) (i : nat) :
  matcher variableDetectorRegx_pattern s i =
  option_map (Nat.add i) (placeholder_at (skipn i s)).
Proof. unfold matcher. now rewrite match_here_placeholder_at. Qed.

(** *** The global loop on a string with a prefix *)

Lemma matcher_shift (p : pattern) (pre s : jsstring) (i : nat) :
  matcher p (pre ++ s) (length pre + i) =
  option_map (Nat.add (length pre)) (matcher p s i).
Proof.
  unfold matcher.
  rewrite skipn_app, skipn_all2 by lia.
  replace (length pre + i - length pre) with i by lia. simpl.
  destruct (match_here p (skipn i s)); simpl; [f_equal; lia | reflexivity].
Qed.

Lemma substring_shift (pre s : jsstring) (j e : nat) :
  substring (pre ++ s) (length pre + j) (length pre + e) = substring s j e.
Proof.
  unfold substring.
  rewrite skipn_app, skipn_all2 by lia.
  replace (length pre + j - length pre) with j by lia.
  replace (length pre + e - (length pre + j)) with (e - j) by lia.
  reflexivity.
Qed.

Lemma scan_shift (p : pattern) (pre s : jsstring) (i : nat) :
  scan p (pre ++ s) (length pre + i) = option_map (shift (length pre)) (scan p s i).
Proof.
  funelim (scan p s i).
  - rewrite scan_end; [reflexivity | rewrite length_app; lia].
  - rewrite (@scan_hit _ _ _ (length pre + e)); [reflexivity | rewrite length_app; lia |].
    now rewrite matcher_shift, Heq.
  - rewrite scan_unfold, matcher_shift, Heq. simpl.
    destruct (Nat.leb_spec (length pre + lastIndex0) (length (pre ++ str)));
      [|rewrite length_app in *; lia].
    rewrite <- Nat.add_assoc. apply H.
Qed.

Lemma match_all_shift (p : pattern) (pre s : jsstring) (i : nat) :
  match_all p (pre ++ s) (length pre + i) = match_all p s i.
Proof.
  funelim (match_all p s i).
  - rewrite match_all_unfold, scan_shift, Hscan. cbn.
    rewrite substring_shift. f_equal.
    rewrite <- (H pre). f_equal.
    destruct (Nat.eqb_spec e i), (Nat.eqb_spec (length pre + e) (length pre + i)); lia.
  - rewrite match_all_unfold, scan_shift.
    match goal with E : scan _ _ _ = None |- _ => now rewrite E end.
Qed.

(** *** Where the matcher fails and where it succeeds *)

Lemma no_placeholder_skipn (t : jsstring) (j : nat) (w r : jsstring) :
  ~ has_placeholder t -> identifier w -> skipn j t <> placeholder w ++ r.
Proof.
  intros Hno Hw Heq. apply Hno. exists (firstn j t), w, r. split; [assumption|].
  now rewrite <- Heq, firstn_skipn.
Qed.

Lemma matcher_no_placeholder (t : jsstring) (j : nat) :
  ~ has_placeholder t -> matcher variableDetectorRegx_pattern t j = None.
Proof.
  intros Hno. rewrite matcher_placeholder_at.
  destruct (placeholder_at (skipn j t)) as [n|] eqn:E; [|reflexivity].
  apply placeholder_at_inv in E as (w & r & Hw & Heq & _).
  now destruct (@no_placeholder_skipn t j w r).
Qed.

(** No placeholder begins in a text and runs into the two opening braces
    that follow it: a placeholder has braces only at its two ends. *)
Lemma placeholder_at_cross (u v : jsstring) :
  u <> [] ->
  (forall w r, identifier w -> u <> placeholder w ++ r) ->
  placeholder_at (u ++ 123 :: 123 :: v)%N = None.
Proof.
  intros Hu Hno.
  destruct (placeholder_at _) as [n|] eqn:E; [exfalso | reflexivity].
  apply placeholder_at_inv in E as (w & r & Hw & Heq & _).
  rewrite placeholder_unfold in Heq. simpl in Heq.
  rewrite <- app_assoc in Heq.
  destruct u as [|c0 [|c1 [|c2 u3]]]; simpl in Heq; try congruence.
  injection Heq as -> -> -> Heq.
  apply app_eq_app in Heq as [l [[H1 H2] | [H1 H2]]].
  - destruct l as [|a [|b [|c l]]]; simpl in H2; try congruence.
    injection H2 as <- <- <- ->.
    apply (Hno w l Hw). rewrite placeholder_unfold, H1. simpl.
    now rewrite <- app_assoc.
  - destruct l as [|a l]; simpl in H2; [congruence|].
    injection H2 as <- _. destruct Hw as [_ Hw]. rewrite H1 in Hw.
    apply Forall_app in Hw as [_ Hw]. inversion Hw as [|? ? Hc _].
    discriminate Hc.
Qed.

Lemma matcher_before_placeholder (t w rest : jsstring) (j : nat) :
  ~ has_placeholder t -> j < length t ->
  matcher variableDetectorRegx_pattern (t ++ placeholder w ++ rest) j = None.
Proof.
  intros Hno Hj. rewrite matcher_placeholder_at, skipn_app.
  replace (j - length t) with 0 by lia. rewrite skipn_O.
  rewrite placeholder_unfold. cbn [app].
  rewrite placeholder_at_cross; [reflexivity | |].
  - intros E. apply (f_equal (@length _)) in E.
    rewrite length_skipn in E. simpl in E. lia.
  - intros w' r Hw'. now apply no_placeholder_skipn.
Qed.

Lemma matcher_at_placeholder (t w rest : jsstring) :
  identifier w ->
  matcher variableDetectorRegx_pattern (t ++ placeholder w ++ rest) (length t) =
  Some (length t + (6 + length w)).
Proof.
  intros Hw. rewrite matcher_placeholder_at, skipn_app, skipn_all, Nat.sub_diag.
  rewrite skipn_O, app_nil_l. now rewrite placeholder_at_placeholder.
Qed.

(** *** The global loop on texts with and without placeholders *)

Lemma match_all_no_placeholder (t : jsstring) (i : nat) :
  ~ has_placeholder t -> match_all variableDetectorRegx_pattern t i = [].
Proof.
  intros Hno. rewrite match_all_unfold, scan_none; [reflexivity|].
  intros j _. now apply matcher_no_placeholder.
Qed.

Lemma match_all_piece (t w rest : jsstring) :
  ~ has_placeholder t -> identifier w ->
  match_all variableDetectorRegx_pattern (t ++ placeholder w ++ rest) 0 =
  placeholder w :: match_all variableDetectorRegx_pattern rest 0.
Proof.
  intros Hno Hw. rewrite match_all_unfold.
  rewrite (@scan_skip _ _ (length t)) with (d := length t);
    [| rewrite length_app; lia | reflexivity
     | intros j Hj; apply matcher_before_placeholder; [assumption | lia]].
  rewrite (@scan_hit _ _ _ (length t + (6 + length w)));
    [| rewrite length_app; lia | now apply matcher_at_placeholder].
  f_equal.
  - rewrite <- (Nat.add_0_r (length t)) at 1. rewrite substring_shift.
    unfold substring. rewrite skipn_O, Nat.sub_0_r.
    rewrite <- placeholder_length, firstn_app, Nat.sub_diag, firstn_all.
    rewrite firstn_O. apply app_nil_r.
  - destruct (Nat.eqb_spec (length t + (6 + length w)) (length t)); [lia|].
    rewrite app_assoc.
    replace (length t + (6 + length w)) with (length (t ++ placeholder w) + 0)
      by (rewrite length_app, placeholder_length; lia).
    apply match_all_shift.
Qed.

Lemma match_all_render (pieces : list (jsstring * jsstring)) (tail : jsstring) :
  Forall well_formed_piece pieces -> ~ has_placeholder tail ->
  match_all variableDetectorRegx_pattern (render pieces tail) 0 =
  map placeholder (map snd pieces).
Proof.
  intros Hp Ht. induction Hp as [|[t w] pieces [Hno Hw] Hp IH].
  - now apply match_all_no_placeholder.
  - unfold render. cbn [fold_right fst snd map]. fold (render pieces tail).
    rewrite match_all_piece by assumption. now rewrite IH.
Qed.

(** Every match of the global loop is a well-formed placeholder. *)
Lemma match_all_sound (s : jsstring) (i : nat) :
  exists ws, Forall identifier ws /\
    match_all variableDetectorRegx_pattern s i = map placeholder ws.
Proof.
  remember variableDetectorRegx_pattern as p eqn:Hp.
  funelim (match_all p s i).
  - destruct H as (ws & Hws & Heq).
    destruct (scan_some _ _ _ Hscan) as [Hm _].
    rewrite matcher_placeholder_at in Hm.
    destruct (placeholder_at (skipn i str)) as [n|] eqn:E; [|discriminate].
    injection Hm as <-.
    apply placeholder_at_inv in E as (w & r & Hw & Hs & ->).
    exists (w :: ws). split; [now constructor|].
    cbn [map]. rewrite Heq. f_equal.
    unfold substring. rewrite Hs.
    replace (i + (6 + length w) - i) with (length (placeholder w))
      by (rewrite placeholder_length; lia).
    rewrite firstn_app, Nat.sub_diag, firstn_all, firstn_O. apply app_nil_r.
  - exists []. split; [constructor | reflexivity].
Qed.

(** *** Deciding the hypotheses *)

Lemma has_placeholder_contains (s : jsstring) :
  has_placeholder s -> contains_placeholder s = true.
Proof.
  intros (pre & w & post & Hw & ->).
  induction pre as [|c pre IH].
  - rewrite app_nil_l.
    pose proof (placeholder_at_placeholder post Hw) as E.
    destruct (placeholder w ++ post); cbn [contains_placeholder]; now rewrite E.
  - cbn [app contains_placeholder].
    destruct (placeholder_at (c :: pre ++ placeholder w ++ post)); [reflexivity|].
    exact IH.
Qed.

Lemma no_placeholder_check (s : jsstring) :
  contains_placeholder s = false -> ~ has_placeholder s.
Proof.
  intros E H. apply has_placeholder_contains in H. congruence.
Qed.

Lemma identifier_check (w : jsstring) :
  is_identifier w = true -> identifier w.
Proof.
  unfold is_identifier, identifier. destruct w as [|c w]; [discriminate|].
  intros H. split; [discriminate|].
  apply Forall_forall. now apply forallb_forall.
Qed.

(** *** Every string is a text with placeholders *)

Lemma scan_none_inv (p : pattern) (s : jsstring) (i : nat) :
  scan p s i = None ->
  forall j, i <= j <= length s -> matcher p s j = None.
Proof.
  funelim (scan p s i); intros H' j Hj; try discriminate.
  - lia.
  - destruct (Nat.eq_dec j lastIndex0) as [->|Hne]; [assumption|].
    apply H; [assumption | lia].
Qed.

Lemma render_exhaustive (s : jsstring) :
  exists pieces tail,
    Forall well_formed_piece pieces /\ ~ has_placeholder tail /\
    s = render pieces tail.
Proof.
  remember (length s) as n eqn:Hn. revert s Hn.
  induction n as [n IH] using lt_wf_ind. intros s ->.
  destruct (scan variableDetectorRegx_pattern s 0) as [[j e]|] eqn:E.
  - destruct (scan_some _ _ _ E) as [Hm Hnone].
    apply scan_bound in E as (_ & _ & He).
    rewrite matcher_placeholder_at in Hm.
    destruct (placeholder_at (skipn j s)) as [n|] eqn:Hp; [|discriminate].
    injection Hm as <-.
    apply placeholder_at_inv in Hp as (w & rest & Hw & Hs & ->).
    assert (Hlen : length s = j + (6 + length w) + length rest).
    { rewrite <- (firstn_skipn j s) at 1.
      rewrite Hs, !length_app, placeholder_length, length_firstn. lia. }
    destruct (IH (length rest) ltac:(lia) rest eq_refl)
      as (pieces & tail & Hpieces & Htail & ->).
    exists ((firstn j s, w) :: pieces), tail. split; [|split].
    + constructor; [|assumption]. split; [|assumption]. cbn [fst].
      intros (pre & w' & post & Hw' & Heq).
      assert (Hj : length pre < j).
      { apply (f_equal (@length _)) in Heq.
        rewrite length_firstn, !length_app, placeholder_length in Heq. lia. }
      specialize (Hnone (length pre) ltac:(lia)).
      rewrite <- (firstn_skipn j s), Heq, <- !app_assoc in Hnone.
      rewrite matcher_at_placeholder in Hnone by assumption. discriminate.
    + assumption.
    + unfold render. cbn [fold_right fst snd]. fold (render pieces tail).
      rewrite <- Hs. symmetry. apply firstn_skipn.
  - exists [], s. split; [constructor|]. split; [|reflexivity].
    intros (pre & w & post & Hw & ->).
    pose proof (@scan_none_inv _ _ _ E (length pre)) as Hnone.
    rewrite matcher_at_placeholder in Hnone by assumption.
    rewrite length_app in Hnone. specialize (Hnone ltac:(lia)). discriminate.
Qed.

Lemma well_formed_piece_check (t w : jsstring) :
  contains_placeholder t = false -> is_identifier w = true ->
  well_formed_piece (t, w).
Proof.
  intros Ht Hw. split; [now apply no_placeholder_check | now apply identifier_check].
Qed.

(** *** Segments in which no placeholder starts *)

Lemma inert_nil : inert [].
Proof. intros k Hk. simpl in Hk. lia. Qed.

Lemma inert_cons (c : code_unit) (seg : jsstring) :
  (forall rest, placeholder_at (c :: seg ++ rest) = None) ->
  inert seg -> inert (c :: seg).
Proof.
  intros Hc Hseg [|k] Hk rest; [apply Hc|].
  simpl in Hk. apply Hseg. lia.
Qed.

Lemma inert_app (a b : jsstring) : inert a -> inert b -> inert (a ++ b).
Proof.
  intros Ha Hb k Hk rest. rewrite length_app in Hk.
  rewrite skipn_app, <- app_assoc.
  destruct (Nat.lt_ge_cases k (length a)) as [Hlt|Hge].
  - now apply Ha.
  - rewrite skipn_all2, app_nil_l by assumption. apply Hb. lia.
Qed.

Lemma inert_concat (segs : list jsstring) :
  Forall inert segs -> inert (concat segs).
Proof.
  induction 1 as [|seg segs Hseg _ IH]; [apply inert_nil|].
  now apply inert_app.
Qed.

Lemma inert_no_placeholder (s : jsstring) : inert s -> ~ has_placeholder s.
Proof.
  intros Hs (pre & w & post & Hw & ->).
  assert (Hlt : length pre < length (pre ++ placeholder w ++ post))
    by (rewrite !length_app, placeholder_length; lia).
  specialize (Hs (length pre) Hlt []).
  rewrite skipn_app, skipn_all, Nat.sub_diag, skipn_O, app_nil_l, app_nil_r in Hs.
  rewrite placeholder_at_placeholder in Hs by assumption. discriminate.
Qed.

Lemma placeholder_at_head (c : code_unit) (s : jsstring) :
  c <> 123%N -> placeholder_at (c :: s) = None.
Proof.
  intros Hc. unfold placeholder_at. cbn.
  now destruct (N.eqb_spec c 123).
Qed.

Lemma placeholder_at_second (c : code_unit) (s : jsstring) :
  c <> 123%N -> placeholder_at (123%N :: c :: s) = None.
Proof.
  intros Hc. unfold placeholder_at. cbn.
  now destruct (N.eqb_spec c 123).
Qed.

Lemma placeholder_at_third (c : code_unit) (s : jsstring) :
  c <> 32%N -> placeholder_at (123%N :: 123%N :: c :: s) = None.
Proof.
  intros Hc. unfold placeholder_at. cbn.
  now destruct (N.eqb_spec c 32).
Qed.

Lemma word_char_plain (c : code_unit) :
  is_word_char c = true -> c <> 123%N /\ c <> 32%N /\ c <> 125%N.
Proof. intros H. repeat split; intros ->; discriminate H. Qed.

Lemma inert_brace_free (t : jsstring) : brace_free t -> inert t.
Proof.
  induction 1 as [|c t Hc _ IH]; [apply inert_nil|].
  apply inert_cons; [|assumption].
  intros rest. now apply placeholder_at_head.
Qed.

Lemma word_brace_free (w : jsstring) :
  Forall (fun c => is_word_char c = true) w -> brace_free w.
Proof.
  apply Forall_impl. intros c Hc. now apply word_char_plain.
Qed.

Lemma inert_no_padding (w : jsstring) :
  identifier w -> inert (js "{{" ++ w ++ js "}}").
Proof.
  intros [Hne Hw].
  change (js "{{" ++ w ++ js "}}") with (123 :: 123 :: w ++ [125; 125])%N.
  assert (Hin : inert (w ++ [125; 125])%N).
  { apply inert_brace_free, Forall_app. split; [now apply word_brace_free|].
    repeat constructor; discriminate. }
  destruct w as [|c w]; [congruence|].
  inversion Hw as [|? ? Hc _]; subst.
  apply word_char_plain in Hc as (H123 & H32 & _).
  apply inert_cons; [intros rest; now apply placeholder_at_third|].
  apply inert_cons; [intros rest; now apply placeholder_at_second|].
  exact Hin.
Qed.

Lemma inert_inner_space (w1 w2 : jsstring) :
  identifier w1 -> identifier w2 ->
  inert (js "{{ " ++ w1 ++ js " " ++ w2 ++ js " }}").
Proof.
  intros [_ Hw1] [Hne Hw2].
  change (js "{{ " ++ w1 ++ js " " ++ w2 ++ js " }}")
    with (123 :: 123 :: 32 :: w1 ++ 32 :: w2 ++ [32; 125; 125])%N.
  assert (Hin : inert (32 :: w1 ++ 32 :: w2 ++ [32; 125; 125])%N).
  { apply inert_brace_free. constructor; [discriminate|].
    apply Forall_app. split; [now apply word_brace_free|].
    constructor; [discriminate|].
    apply Forall_app. split; [now apply word_brace_free|].
    repeat constructor; discriminate. }
  apply inert_cons; [|apply inert_cons; [|exact Hin]].
  - intros rest. unfold placeholder_at.
    change (js "{{ ") with [123; 123; 32]%N.
    cbn [app].
    rewrite (proj2 (strip_prefix_spec [123; 123; 32]%N
                      (123 :: 123 :: 32 :: (w1 ++ 32 :: w2 ++ [32; 125; 125]) ++ rest)%N
                      _) eq_refl).
    rewrite <- app_assoc. cbn [app].
    destruct (@take_word_app w1 32%N ((w2 ++ [32; 125; 125]) ++ rest)%N Hw1 eq_refl)
      as [-> ->].
    destruct w1 as [|c1 w1]; [reflexivity|].
    destruct w2 as [|c2 w2]; [congruence|].
    inversion Hw2 as [|? ? Hc _]; subst.
    apply word_char_plain in Hc as (_ & _ & H125).
    cbn. now destruct (N.eqb_spec c2 125).
  - intros rest. now apply placeholder_at_second.
Qed.

Lemma inert_malformed (seg : jsstring) : malformed seg -> inert seg.
Proof.
  intros [w Hw | w1 w2 Hw1 Hw2];
    [now apply inert_no_padding | now apply inert_inner_space].
Qed.

End Matcher.

(** ** The extractor in terms of the matches *)

Section Extractor.

Lemma deref_alloc (R : RegExp.object) (h : heap) :
  deref (snd (alloc R h)) (fst (alloc R h)) = Some R.
Proof.
  unfold deref, alloc. simpl.
  rewrite nth_error_app2, Nat.sub_diag by lia. reflexivity.
Qed.

Lemma store_alloc (R R' : RegExp.object) (h : heap) :
  store (snd (alloc R h)) (fst (alloc R h)) R' = h ++ [R'].
Proof.
  unfold alloc. simpl. induction h as [|R0 h IH]; simpl; [reflexivity|].
  now rewrite IH.
Qed.

Lemma mapM_strings (f : jsval -> completion jsval) (g : jsstring -> jsval)
      (A : list jsstring) :
  (forall m, f (JString m) = Normal (g m)) ->
  mapM f (map JString A) = Normal (map g A).
Proof.
  intros Hf. induction A as [|m A IH]; simpl; [reflexivity|].
  now rewrite Hf, IH.
Qed.

Lemma filterM_identity (l : list jsval) :
  filterM (fun match_ => Normal match_) l = Normal (filter ToBoolean l).
Proof.
  induction l as [|x l IH]; simpl; [reflexivity|].
  rewrite IH. simpl. reflexivity.
Qed.

(** On a string the extractor returns what it makes of the matches of the
    global loop from index 0, and leaves one more regular expression
    object, with [lastIndex] 0, on the heap. *)
Lemma detectVaraibles_string (s : jsstring) (h : heap) :
  detectVaraibles (JString s) h =
  (Normal (extracted (RegExp.match_all variableDetectorRegx_pattern s 0)),
   h ++ [variableDetectorRegx_literal]).
Proof.
  unfold detectVaraibles.
  pose proof (deref_alloc variableDetectorRegx_literal h) as Hd.
  pose proof (store_alloc variableDetectorRegx_literal) as Hs.
  destruct (alloc variableDetectorRegx_literal h) as [r h'] eqn:Ha.
  simpl in Hd. unfold String_prototype_match. rewrite Hd.
  unfold RegExp.Symbol_match. cbn [RegExp.global RegExp.source variableDetectorRegx_literal].
  destruct (RegExp.match_all variableDetectorRegx_pattern s 0) as [|m A] eqn:HA.
  - cbn. f_equal. specialize (Hs variableDetectorRegx_literal h).
    rewrite Ha in Hs. exact Hs.
  - cbn [Array_isArray Array_prototype_map].
    rewrite (@mapM_strings _ (fun m => JString (strip m))) by reflexivity.
    cbn [bind Array_prototype_filter]. rewrite filterM_identity. cbn [bind extracted].
    f_equal. specialize (Hs variableDetectorRegx_literal h).
    rewrite Ha in Hs. exact Hs.
Qed.

(** Slicing a placeholder from 3 to its length less 3 leaves the name. *)
Lemma strip_placeholder (w : jsstring) : strip (placeholder w) = w.
Proof.
  unfold strip, slice. rewrite placeholder_length.
  rewrite placeholder_unfold.
  replace (Z.of_nat (6 + length w) - 3)%Z with (Z.of_nat (3 + length w)) by lia.
  destruct (Z.ltb_spec 3 0); [lia|].
  destruct (Z.ltb_spec (Z.of_nat (3 + length w)) 0); [lia|].
  rewrite !Z.min_l by lia.
  replace (Z.max (Z.of_nat (3 + length w) - 3) 0) with (Z.of_nat (length w)) by lia.
  rewrite Nat2Z.id. change (Z.to_nat 3) with 3. simpl skipn.
  rewrite firstn_app, Nat.sub_diag, firstn_all. simpl. apply app_nil_r.
Qed.

Lemma filter_strip_placeholders (ws : list jsstring) :
  Forall identifier ws ->
  filter ToBoolean (map (fun m => JString (strip m)) (map placeholder ws)) =
  map JString ws.
Proof.
  intros Hws. induction Hws as [|w ws [Hne _] Hws IH]; [reflexivity|].
  cbn [map filter]. rewrite strip_placeholder, IH.
  destruct w; [congruence | reflexivity].
Qed.

Lemma extracted_placeholders (ws : list jsstring) :
  Forall identifier ws -> extracted (map placeholder ws) = names ws.
Proof.
  intros Hws. destruct ws as [|w ws]; [reflexivity|].
  unfold extracted, names.
  change (map placeholder (w :: ws)) with (placeholder w :: map placeholder ws).
  cbv beta iota.
  change (placeholder w :: map placeholder ws) with (map placeholder (w :: ws)).
  now rewrite filter_strip_placeholders.
Qed.

End Extractor.

(** ** The properties of the specification *)

Section Properties.

Lemma detectVaraibles_names (s : jsstring) (h : heap) (ws : list jsstring) :
  Forall identifier ws ->
  RegExp.match_all variableDetectorRegx_pattern s 0 = map placeholder ws ->
  fst (detectVaraibles (JString s) h) = Normal (names ws).
Proof.
  intros Hws Hm. rewrite detectVaraibles_string, Hm. cbn [fst].
  now rewrite extracted_placeholders.
Qed.

Lemma detectVaraibles_render (pieces : list (jsstring * jsstring))
      (tail : jsstring) (h : heap) :
  Forall well_formed_piece pieces -> ~ has_placeholder tail ->
  fst (detectVaraibles (JString (render pieces tail)) h) =
  Normal (names (map snd pieces)).
Proof.
  intros Hp Ht. apply detectVaraibles_names.
  - apply Forall_map. revert Hp. apply Forall_impl. now intros tw [_ Hw].
  - now apply match_all_render.
Qed.

Lemma detectVaraibles_no_placeholder (s : jsstring) (h : heap) :
  ~ has_placeholder s -> fst (detectVaraibles (JString s) h) = Normal JNull.
Proof.
  intros Hs. exact (@detectVaraibles_render [] s h (Forall_nil _) Hs).
Qed.

(** C1, as the code has it: for every input string with no substring that
    is a well-formed placeholder, the empty string among them, the extractor
    returns [null], the value that [match] gives when nothing matches, and
    not an empty array. *)
Theorem no_placeholder_null (s : jsstring) (h : heap) :
  ~ has_placeholder s ->
  fst (detectVaraibles (JString s) h) = Normal JNull.
Proof. apply detectVaraibles_no_placeholder. Qed.

Lemma no_placeholder_null_witness :
  ~ has_placeholder (js "") /\
  fst (detectVaraibles (JString (js "")) []) = Normal JNull.
Proof.
  assert (H : ~ has_placeholder (js "")) by (apply no_placeholder_check; reflexivity).
  split; [exact H | exact (@no_placeholder_null (js "") [] H)].
Defined.

(** C1 as stated fails: the empty string has no placeholder, and the
    extractor does not return the empty array for it. *)
Lemma empty_input_not_empty_array :
  ~ has_placeholder (js "") /\
  fst (detectVaraibles (JString (js "")) []) <> Normal (JArray []).
Proof.
  split; [apply no_placeholder_check; reflexivity|].
  rewrite detectVaraibles_no_placeholder by (apply no_placeholder_check; reflexivity).
  discriminate.
Qed.

(** C2, as the code has it: an input made of malformed placeholders of the
    shapes [{{name}}] and [{{ first name }}], with any text that has no
    opening brace around them, is not matched anywhere and the extractor
    returns [null]; a placeholder inside one more pair of braces,
    [{{{ x }}}], is matched from its second brace on and contributes its
    name. *)
Theorem malformed_shapes (segs : list jsstring) (w : jsstring) (h : heap) :
  Forall (fun seg => malformed seg \/ brace_free seg) segs ->
  identifier w ->
  fst (detectVaraibles (JString (concat segs)) h) = Normal JNull /\
  fst (detectVaraibles (JString (extra_braces w)) h) = Normal (JArray [JString w]).
Proof.
  intros Hsegs Hw. split.
  - apply detectVaraibles_no_placeholder, inert_no_placeholder, inert_concat.
    revert Hsegs. apply Forall_impl.
    intros seg [Hm|Hb]; [now apply inert_malformed | now apply inert_brace_free].
  - apply (@detectVaraibles_render [(js "{", w)] (js "}") h).
    + constructor; [|constructor].
      split; [apply no_placeholder_check; reflexivity | exact Hw].
    + apply no_placeholder_check. reflexivity.
Qed.

Lemma malformed_shapes_witness :
  Forall (fun seg => malformed seg \/ brace_free seg)
    [js "{{name}}"; js " and "; js "{{ first name }}"] /\
  identifier (js "x") /\
  fst (detectVaraibles (JString (js "{{name}} and {{ first name }}")) []) = Normal JNull /\
  fst (detectVaraibles (JString (js "{{{ x }}}")) []) = Normal (JArray [JString (js "x")]).
Proof.
  assert (Hsegs : Forall (fun seg => malformed seg \/ brace_free seg)
                    [js "{{name}}"; js " and "; js "{{ first name }}"]).
  { constructor; [left; exact (@no_padding (js "name")
                                 (identifier_check (js "name") eq_refl))|].
    constructor; [right; repeat constructor; discriminate|].
    constructor; [left; exact (@inner_space (js "first") (js "name")
                                 (identifier_check (js "first") eq_refl)
                                 (identifier_check (js "name") eq_refl))|].
    constructor. }
  assert (Hx : identifier (js "x"))
    by exact (identifier_check (js "x") eq_refl).
  split; [exact Hsegs|]. split; [exact Hx|].
  exact (@malformed_shapes _ (js "x") [] Hsegs Hx).
Defined.

(** C2 as stated fails: for [{{{ x }}}] the extractor returns an array with
    the element [x]. *)
Lemma extra_braces_matched :
  js "{{{ x }}}" = extra_braces (js "x") /\
  fst (detectVaraibles (JString (js "{{{ x }}}")) []) =
    Normal (JArray [JString (js "x")]) /\
  ~ (fst (detectVaraibles (JString (js "{{{ x }}}")) []) = Normal JNull \/
     fst (detectVaraibles (JString (js "{{{ x }}}")) []) = Normal (JArray [])).
Proof.
  assert (E : fst (detectVaraibles (JString (js "{{{ x }}}")) []) =
              Normal (JArray [JString (js "x")])) by (vm_compute; reflexivity).
  split; [reflexivity|]. split; [exact E|].
  rewrite E. intros [H|H]; discriminate H.
Qed.

(** C3, as the code has it: for the input [{{name}}] the extractor returns
    [null], not the empty array: nothing matches. *)
Theorem no_padding_name_null (h : heap) :
  fst (detectVaraibles (JString (js "{{name}}")) h) = Normal JNull.
Proof.
  apply detectVaraibles_no_placeholder, no_placeholder_check. reflexivity.
Qed.

(** C3 as stated fails: the result for [{{name}}] is not the empty array. *)
Lemma no_padding_name_not_empty_array :
  fst (detectVaraibles (JString (js "{{name}}")) []) <> Normal (JArray []).
Proof. vm_compute. discriminate. Qed.

(** C4: for an input that is exactly one well-formed placeholder the
    extractor returns the one-element array of its name, and the name is
    what [slice(3, length - 3)] leaves of the match: the match without its
    3-character prefix and its 3-character suffix. *)
Theorem single_placeholder (w : jsstring) (h : heap) :
  identifier w ->
  fst (detectVaraibles (JString (placeholder w)) h) = Normal (JArray [JString w]) /\
  slice (placeholder w) 3 (Z.of_nat (length (placeholder w)) - 3) = w /\
  placeholder w = js "{{ " ++ w ++ js " }}".
Proof.
  intros Hw. split; [|split; [apply strip_placeholder | reflexivity]].
  rewrite <- (app_nil_r (placeholder w)).
  apply (@detectVaraibles_render [([], w)] [] h).
  - constructor; [|constructor]. split; [apply no_placeholder_check; reflexivity | exact Hw].
  - apply no_placeholder_check. reflexivity.
Qed.

Lemma single_placeholder_witness :
  identifier (js "name") /\
  fst (detectVaraibles (JString (js "{{ name }}")) []) =
    Normal (JArray [JString (js "name")]) /\
  slice (js "{{ name }}") 3 (Z.of_nat (length (js "{{ name }}")) - 3) = js "name" /\
  js "{{ name }}" = js "{{ " ++ js "name" ++ js " }}".
Proof.
  assert (Hw : identifier (js "name"))
    by exact (identifier_check (js "name") eq_refl).
  split; [exact Hw | exact (@single_placeholder (js "name") [] Hw)].
Defined.

(** C5: for an input with well-formed placeholders, whatever
    placeholder-free text stands before, between and after them, the
    extractor returns their names in the order in which they appear. *)
Theorem left_to_right_order (pieces : list (jsstring * jsstring))
        (tail : jsstring) (h : heap) :
  Forall well_formed_piece pieces -> ~ has_placeholder tail -> pieces <> [] ->
  fst (detectVaraibles (JString (render pieces tail)) h) =
  Normal (JArray (map JString (map snd pieces))).
Proof.
  intros Hp Ht Hne. rewrite detectVaraibles_render by assumption.
  destruct pieces; [congruence | reflexivity].
Qed.

Lemma left_to_right_order_witness :
  Forall well_formed_piece [(js "Hello ", js "first"); (js " ", js "last")] /\
  ~ has_placeholder (js "!") /\
  fst (detectVaraibles (JString (js "Hello {{ first }} {{ last }}!")) []) =
    Normal (JArray [JString (js "first"); JString (js "last")]).
Proof.
  assert (Hp : Forall well_formed_piece
                 [(js "Hello ", js "first"); (js " ", js "last")]).
  { repeat (constructor; [apply well_formed_piece_check; reflexivity|]).
    constructor. }
  assert (Ht : ~ has_placeholder (js "!")) by (apply no_placeholder_check; reflexivity).
  split; [exact Hp|]. split; [exact Ht|].
  apply (@left_to_right_order
           [(js "Hello ", js "first"); (js " ", js "last")] (js "!") [] Hp Ht).
  discriminate.
Defined.

(** C6: every occurrence of a placeholder contributes its own element:
    the result has one element for each placeholder of the input, so two
    occurrences of the same name, the [i]th and the [j]th placeholder, give
    the same name at index [i] and at index [j] of the result. *)
Theorem duplicates_preserved (pieces : list (jsstring * jsstring))
        (tail : jsstring) (h : heap) (i j : nat) (w : jsstring) :
  Forall well_formed_piece pieces -> ~ has_placeholder tail ->
  nth_error (map snd pieces) i = Some w ->
  nth_error (map snd pieces) j = Some w ->
  i <> j ->
  exists l,
    fst (detectVaraibles (JString (render pieces tail)) h) = Normal (JArray l) /\
    length l = length pieces /\
    nth_error l i = Some (JString w) /\
    nth_error l j = Some (JString w).
Proof.
  intros Hp Ht Hi Hj _. exists (map JString (map snd pieces)).
  rewrite detectVaraibles_render by assumption.
  split; [destruct pieces; [destruct i; discriminate | reflexivity]|].
  split; [now rewrite !length_map|].
  split; now apply map_nth_error.
Qed.

Lemma duplicates_preserved_witness :
  Forall well_formed_piece [(js "", js "a"); (js " ", js "a")] /\
  ~ has_placeholder (js "") /\
  exists l,
    fst (detectVaraibles (JString (js "{{ a }} {{ a }}")) []) = Normal (JArray l) /\
    length l = 2 /\
    nth_error l 0 = Some (JString (js "a")) /\
    nth_error l 1 = Some (JString (js "a")).
Proof.
  assert (Hp : Forall well_formed_piece [(js "", js "a"); (js " ", js "a")]).
  { repeat (constructor; [apply well_formed_piece_check; reflexivity|]).
    constructor. }
  assert (Ht : ~ has_placeholder (js "")) by (apply no_placeholder_check; reflexivity).
  split; [exact Hp|]. split; [exact Ht|].
  apply (@duplicates_preserved
           [(js "", js "a"); (js " ", js "a")] (js "") [] 0 1 (js "a") Hp Ht);
    [reflexivity | reflexivity | discriminate].
Defined.

(** C7: on every string the extractor completes normally: it never throws,
    and it returns [null] or an array. *)
Theorem detectVaraibles_total (s : jsstring) (h : heap) :
  exists v, fst (detectVaraibles (JString s) h) = Normal v /\
            (v = JNull \/ Array_isArray v = true).
Proof.
  rewrite detectVaraibles_string. cbn [fst]. eexists. split; [reflexivity|].
  destruct (RegExp.match_all variableDetectorRegx_pattern s 0);
    [left | right]; reflexivity.
Qed.

(** The totality is of strings: a call with [null] throws. *)
Example null_input_throws :
  fst (detectVaraibles JNull []) = Throw TypeError.
Proof. reflexivity. Qed.

(** Code units outside ASCII, surrogate pairs and unfinished braces. *)
Example unicode_input :
  fst (detectVaraibles
         (JString ([20320; 22909; 55357; 56832] ++ js " {{ n }} " ++ [233; 8364])%N) []) =
  Normal (JArray [JString (js "n")]).
Proof. vm_compute. reflexivity. Qed.

Example partial_braces_input :
  fst (detectVaraibles (JString (js "{{ name }")) []) = Normal JNull /\
  fst (detectVaraibles (JString (js "{{ ")) []) = Normal JNull /\
  fst (detectVaraibles (JString (js "}}{{")) []) = Normal JNull.
Proof. vm_compute. repeat split. Qed.

(** C8: the result is a function of the input string alone: it is the same
    on every heap, so also when the extractor is run again on the heap
    that its first run left, and a run leaves the objects of the heap it
    started from as they were. *)
Theorem detectVaraibles_deterministic (s : jsstring) (h1 h2 : heap) :
  fst (detectVaraibles (JString s) h1) = fst (detectVaraibles (JString s) h2) /\
  fst (detectVaraibles (JString s) (snd (detectVaraibles (JString s) h1))) =
    fst (detectVaraibles (JString s) h1) /\
  firstn (length h1) (snd (detectVaraibles (JString s) h1)) = h1.
Proof.
  rewrite !detectVaraibles_string. cbn [fst snd].
  repeat split. rewrite firstn_app, Nat.sub_diag, firstn_all. apply app_nil_r.
Qed.

(** C9: whenever the extractor returns an array, every element of it is a
    string of one or more word characters. *)
Theorem names_are_identifiers (s : jsstring) (h : heap) (l : list jsval) :
  fst (detectVaraibles (JString s) h) = Normal (JArray l) ->
  Forall (fun v => exists w, v = JString w /\ identifier w) l.
Proof.
  destruct (@match_all_sound s 0) as (ws & Hws & Hm).
  rewrite (@detectVaraibles_names s h ws Hws Hm).
  destruct ws as [|w ws]; [discriminate|].
  intros [= <-].
  change (Forall (fun v => exists w, v = JString w /\ identifier w)
            (map JString (w :: ws))).
  rewrite Forall_map. revert Hws. apply Forall_impl.
  intros v Hv. now exists v.
Qed.

Lemma names_are_identifiers_witness :
  fst (detectVaraibles (JString (js "a {{ b_1 }} c")) []) =
    Normal (JArray [JString (js "b_1")]) /\
  Forall (fun v => exists w, v = JString w /\ identifier w) [JString (js "b_1")].
Proof.
  assert (H : fst (detectVaraibles (JString (js "a {{ b_1 }} c")) []) =
              Normal (JArray [JString (js "b_1")])) by (vm_compute; reflexivity).
  split; [exact H | exact (@names_are_identifiers _ [] _ H)].
Defined.

(** C10: when [match] returns an array of matches, the extractor returns an
    array of the same length: the string check of the mapping function and
    the truthiness filter discard none of them. *)
Theorem no_match_discarded (s : jsstring) (h : heap) (matches : list jsval) :
  fst (RegExp.Symbol_match variableDetectorRegx_literal s) = JArray matches ->
  exists l,
    fst (detectVaraibles (JString s) h) = Normal (JArray l) /\
    length l = length matches.
Proof.
  destruct (@match_all_sound s 0) as (ws & Hws & Hm).
  rewrite (@detectVaraibles_names s h ws Hws Hm).
  unfold RegExp.Symbol_match.
  cbn [RegExp.global RegExp.source variableDetectorRegx_literal]. rewrite Hm.
  destruct ws as [|w ws]; [discriminate|].
  cbn [map fst]. intros [= <-].
  eexists. split; [reflexivity|]. cbn [length]. now rewrite !length_map.
Qed.

Lemma no_match_discarded_witness :
  fst (RegExp.Symbol_match variableDetectorRegx_literal (js "{{ a }}{{ b }}")) =
    JArray [JString (js "{{ a }}"); JString (js "{{ b }}")] /\
  exists l,
    fst (detectVaraibles (JString (js "{{ a }}{{ b }}")) []) = Normal (JArray l) /\
    length l = 2.
Proof.
  assert (H : fst (RegExp.Symbol_match variableDetectorRegx_literal
                     (js "{{ a }}{{ b }}")) =
              JArray [JString (js "{{ a }}"); JString (js "{{ b }}")])
    by (vm_compute; reflexivity).
  split; [exact H | exact (@no_match_discarded _ [] _ H)].
Defined.

End Properties.

(** ** Further properties of the extractor and of the listener *)

Section Further.

Lemma detectVaraibles_pieces (s : jsstring) (h : heap) :
  exists pieces tail,
    Forall well_formed_piece pieces /\ ~ has_placeholder tail /\
    s = render pieces tail /\
    fst (detectVaraibles (JString s) h) = Normal (names (map snd pieces)).
Proof.
  destruct (render_exhaustive s) as (pieces & tail & Hp & Ht & ->).
  exists pieces, tail. repeat split; try assumption.
  now apply detectVaraibles_render.
Qed.

Lemma elements_names (ws : list jsstring) :
  elements (Normal (names ws)) = map JString ws.
Proof. destruct ws; reflexivity. Qed.

Lemma render_In (pieces : list (jsstring * jsstring)) (tail t w : jsstring) :
  In (t, w) pieces ->
  exists pre post, render pieces tail = pre ++ placeholder w ++ post.
Proof.
  induction pieces as [|[t0 w0] pieces IH]; intros Hin; [destruct Hin|].
  unfold render. cbn [fold_right fst snd]. fold (render pieces tail).
  destruct Hin as [[= -> ->]|Hin].
  - now exists t, (render pieces tail).
  - destruct (IH Hin) as (pre & post & ->).
    exists (t0 ++ placeholder w0 ++ pre), post. now rewrite <- !app_assoc.
Qed.

Lemma render_app (p1 p2 : list (jsstring * jsstring)) (t1 w t2 : jsstring) :
  render p1 t1 ++ placeholder w ++ render p2 t2 =
  render (p1 ++ (t1, w) :: p2) t2.
Proof.
  induction p1 as [|[t0 w0] p1 IH]; [reflexivity|].
  unfold render. cbn [app fold_right fst snd].
  fold (render p1 t1). fold (render (p1 ++ (t1, w) :: p2) t2).
  now rewrite <- IH, <- !app_assoc.
Qed.

Lemma render_length (pieces : list (jsstring * jsstring)) (tail : jsstring) :
  Forall well_formed_piece pieces ->
  7 * length pieces <= length (render pieces tail).
Proof.
  induction 1 as [|[t w] pieces [_ [Hne _]] _ IH]; [simpl; lia|].
  unfold render. cbn [fold_right fst snd]. fold (render pieces tail).
  rewrite !length_app, placeholder_length. cbn [snd] in Hne.
  destruct w; [congruence | simpl; lia].
Qed.

Lemma detectVaraibles_heap (text : jsval) (h1 h2 : heap) :
  fst (detectVaraibles text h1) = fst (detectVaraibles text h2).
Proof.
  destruct text as [|s|l]; [reflexivity | | reflexivity].
  now rewrite !detectVaraibles_string.
Qed.

(** X1: the extractor returns [null] exactly for the strings that have no
    well-formed placeholder as a substring. *)
Theorem null_iff_no_placeholder (s : jsstring) (h : heap) :
  fst (detectVaraibles (JString s) h) = Normal JNull <-> ~ has_placeholder s.
Proof.
  split; [|apply detectVaraibles_no_placeholder].
  destruct (detectVaraibles_pieces s h) as (pieces & tail & Hp & Ht & -> & ->).
  destruct pieces as [|[t w] pieces]; [intros _; exact Ht | discriminate].
Qed.

(** X2: the extractor never returns an empty array: an array that it
    returns has at least one name. *)
Theorem never_empty_array (s : jsstring) (h : heap) :
  fst (detectVaraibles (JString s) h) <> Normal (JArray []).
Proof.
  destruct (detectVaraibles_pieces s h) as (pieces & tail & _ & _ & _ & ->).
  destruct pieces; discriminate.
Qed.

(** X3: every name that the extractor returns is the name of a well-formed
    placeholder that is a substring of the input. *)
Theorem names_from_input (s : jsstring) (h : heap) (l : list jsval) (v : jsval) :
  fst (detectVaraibles (JString s) h) = Normal (JArray l) ->
  In v l ->
  exists w pre post,
    v = JString w /\ identifier w /\ s = pre ++ placeholder w ++ post.
Proof.
  destruct (detectVaraibles_pieces s h) as (pieces & tail & Hp & _ & -> & ->).
  intros Hl Hv.
  assert (Hin : In v (map JString (map snd pieces))).
  { rewrite <- elements_names, Hl. exact Hv. }
  apply in_map_iff in Hin as (w & <- & Hin).
  apply in_map_iff in Hin as ([t w'] & Hw & Hin). cbn [snd] in Hw. subst w'.
  destruct (@render_In pieces tail t w Hin) as (pre & post & Heq).
  exists w, pre, post. split; [reflexivity|]. split; [|exact Heq].
  exact (proj2 (proj1 (Forall_forall _ _) Hp _ Hin)).
Qed.

Lemma names_from_input_witness :
  fst (detectVaraibles (JString (js "to {{ you }}!")) []) =
    Normal (JArray [JString (js "you")]) /\
  In (JString (js "you")) [JString (js "you")] /\
  exists w pre post,
    JString (js "you") = JString w /\ identifier w /\
    js "to {{ you }}!" = pre ++ placeholder w ++ post.
Proof.
  assert (H : fst (detectVaraibles (JString (js "to {{ you }}!")) []) =
              Normal (JArray [JString (js "you")])) by (vm_compute; reflexivity).
  assert (Hin : In (JString (js "you")) [JString (js "you")]) by (left; reflexivity).
  split; [exact H|]. split; [exact Hin|].
  exact (@names_from_input _ [] _ _ H Hin).
Defined.

Lemma elements_compose (s1 w s2 : jsstring) (h : heap) :
  identifier w ->
  elements (fst (detectVaraibles (JString (s1 ++ placeholder w ++ s2)) h)) =
  elements (fst (detectVaraibles (JString s1) h))
    ++ JString w :: elements (fst (detectVaraibles (JString s2) h)).
Proof.
  intros Hw.
  destruct (detectVaraibles_pieces s1 h) as (p1 & t1 & Hp1 & Ht1 & -> & ->).
  destruct (detectVaraibles_pieces s2 h) as (p2 & t2 & Hp2 & Ht2 & -> & ->).
  rewrite render_app, detectVaraibles_render, !elements_names; [| |assumption].
  - now rewrite !map_app, !map_cons.
  - apply Forall_app. split; [assumption|].
    constructor; [split; assumption | assumption].
Qed.

(** X5: placeholders split the work: the names of a text, a well-formed
    placeholder and another text are the names of the first text, the name
    of the placeholder and the names of the second text, whatever the two
    texts are. *)
Theorem names_compose (s1 w s2 : jsstring) (h : heap) :
  identifier w ->
  elements (fst (detectVaraibles (JString (s1 ++ placeholder w ++ s2)) h)) =
  elements (fst (detectVaraibles (JString s1) h))
    ++ JString w :: elements (fst (detectVaraibles (JString s2) h)).
Proof. apply elements_compose. Qed.

Lemma names_compose_witness :
  identifier (js "b") /\
  elements (fst (detectVaraibles (JString (js "{{ a }}{" ++ placeholder (js "b") ++ js "} {{ c }}")) [])) =
  elements (fst (detectVaraibles (JString (js "{{ a }}{")) []))
    ++ JString (js "b") :: elements (fst (detectVaraibles (JString (js "} {{ c }}")) [])).
Proof.
  assert (Hw : identifier (js "b")) by exact (identifier_check (js "b") eq_refl).
  split; [exact Hw|].
  exact (@names_compose (js "{{ a }}{") (js "b") (js "} {{ c }}") [] Hw).
Defined.

(** X4: no well-formed placeholder is missed: the name of every well-formed
    placeholder that is a substring of the input is in the array that the
    extractor returns. *)
Theorem placeholder_found (pre w post : jsstring) (h : heap) :
  identifier w ->
  exists l,
    fst (detectVaraibles (JString (pre ++ placeholder w ++ post)) h) =
      Normal (JArray l) /\
    In (JString w) l.
Proof.
  intros Hw.
  assert (Hin : In (JString w)
                  (elements (fst (detectVaraibles
                                    (JString (pre ++ placeholder w ++ post)) h)))).
  { rewrite elements_compose by assumption. apply in_elt. }
  destruct (fst (detectVaraibles (JString (pre ++ placeholder w ++ post)) h))
    as [[| |l]|]; try (destruct Hin).
  now exists l.
Qed.

Lemma placeholder_found_witness :
  identifier (js "x") /\
  exists l,
    fst (detectVaraibles (JString (js "{{ a }} {" ++ placeholder (js "x") ++ js "}")) []) =
      Normal (JArray l) /\
    In (JString (js "x")) l.
Proof.
  assert (Hw : identifier (js "x")) by exact (identifier_check (js "x") eq_refl).
  split; [exact Hw|].
  exact (@placeholder_found (js "{{ a }} {") (js "x") (js "}") [] Hw).
Defined.

(** X6: a name costs at least seven code units of input: an array of [n]
    names is returned only for strings of length [7 * n] or more. *)
Theorem names_bound (s : jsstring) (h : heap) (l : list jsval) :
  fst (detectVaraibles (JString s) h) = Normal (JArray l) ->
  7 * length l <= length s.
Proof.
  destruct (detectVaraibles_pieces s h) as (pieces & tail & Hp & _ & -> & ->).
  intros Hl. apply (f_equal elements) in Hl. rewrite elements_names in Hl.
  cbn [elements] in Hl. rewrite <- Hl, !length_map. now apply render_length.
Qed.

Lemma names_bound_witness :
  fst (detectVaraibles (JString (js "{{ a }}{{ b }}")) []) =
    Normal (JArray [JString (js "a"); JString (js "b")]) /\
  7 * 2 <= length (js "{{ a }}{{ b }}").
Proof.
  assert (H : fst (detectVaraibles (JString (js "{{ a }}{{ b }}")) []) =
              Normal (JArray [JString (js "a"); JString (js "b")]))
    by (vm_compute; reflexivity).
  split; [exact H | exact (@names_bound _ [] _ H)].
Defined.

(** X7: the extractor does not check its argument: called with a value
    that is not a string it throws a TypeError, from the call of [match]. *)
Theorem non_string_throws (text : jsval) (h : heap) :
  (forall s, text <> JString s) ->
  fst (detectVaraibles text h) = Throw TypeError.
Proof.
  intros Htext. destruct text as [|s|l]; [reflexivity | | reflexivity].
  now destruct (Htext s).
Qed.

Lemma non_string_throws_witness :
  (forall s, JArray [JString (js "{{ a }}")] <> JString s) /\
  fst (detectVaraibles (JArray [JString (js "{{ a }}")]) []) = Throw TypeError.
Proof.
  assert (H : forall s, JArray [JString (js "{{ a }}")] <> JString s)
    by (intros s; discriminate).
  split; [exact H | exact (@non_string_throws _ [] H)].
Defined.

Lemma word_or_break (u : jsstring) :
  Forall (fun c => RegExp.is_word_char c = true) u \/
  exists w0 d r,
    u = w0 ++ d :: r /\ Forall (fun c => RegExp.is_word_char c = true) w0 /\
    RegExp.is_word_char d = false.
Proof.
  induction u as [|c u IH]; [left; constructor|].
  destruct (RegExp.is_word_char c) eqn:Hc.
  - destruct IH as [Hu | (w0 & d & r & -> & Hw0 & Hd)].
    + left. now constructor.
    + right. exists (c :: w0), d, r. repeat split; [now constructor | assumption].
  - right. exists [], c, u. repeat split; [constructor | assumption].
Qed.

Lemma placeholder_at_non_identifier (u rest : jsstring) :
  Forall (fun c => c <> 125%N) u -> ~ identifier u ->
  placeholder_at (js "{{ " ++ u ++ js " }}" ++ rest) = None.
Proof.
  intros Hclose Hu. unfold placeholder_at.
  rewrite (proj2 (strip_prefix_spec (js "{{ ") _ _) eq_refl).
  change (js " }}" ++ rest) with (32 :: 125 :: 125 :: rest)%N.
  destruct (word_or_break u) as [Hw | (w0 & d & r & -> & Hw0 & Hd)].
  - destruct u as [|c u]; [reflexivity|].
    destruct Hu. split; [discriminate | assumption].
  - rewrite <- app_assoc. cbn [app].
    destruct (@take_word_app w0 d (r ++ 32 :: 125 :: 125 :: rest)%N Hw0 Hd)
      as [-> ->].
    destruct w0 as [|c w0]; [reflexivity|].
    apply Forall_app in Hclose as [_ Hclose].
    inversion Hclose as [|? ? Hd125 Hr]; subst.
    cbn [strip_prefix js map list_ascii_of_string].
    change (N_of_ascii " ") with 32%N. change (N_of_ascii "}") with 125%N.
    destruct (N.eqb_spec d 32) as [->|]; [|reflexivity].
    destruct r as [|x r]; [reflexivity|].
    inversion Hr as [|? ? Hx _]; subst. cbn [app].
    now destruct (N.eqb_spec x 125).
Qed.

(** X10: braces around a text that is not a name are not a placeholder:
    when the text between [{{ ] and [ }}] has no brace and is not one or
    more word characters (it is empty, or has a hyphen, a space or a letter
    outside ASCII), the extractor returns [null]. *)
Theorem non_identifier_ignored (u : jsstring) (h : heap) :
  Forall (fun c => c <> 123%N /\ c <> 125%N) u -> ~ identifier u ->
  fst (detectVaraibles (JString (js "{{ " ++ u ++ js " }}")) h) = Normal JNull.
Proof.
  intros Hb Hu.
  apply detectVaraibles_no_placeholder, inert_no_placeholder.
  change (js "{{ " ++ u ++ js " }}") with (123 :: 123 :: 32 :: u ++ js " }}")%N.
  apply inert_cons; [|apply inert_cons].
  - intros rest. cbn [app]. rewrite <- app_assoc.
    change (placeholder_at (js "{{ " ++ u ++ js " }}" ++ rest) = None).
    apply (@placeholder_at_non_identifier u rest); [|assumption].
    revert Hb. apply Forall_impl. now intros c [_ Hc].
  - intros rest. now apply placeholder_at_second.
  - apply inert_brace_free. constructor; [discriminate|].
    apply Forall_app. split.
    + revert Hb. apply Forall_impl. now intros c [Hc _].
    + repeat constructor; discriminate.
Qed.

Lemma non_identifier_ignored_witness :
  Forall (fun c => c <> 123%N /\ c <> 125%N) [99; 97; 102; 233]%N /\
  ~ identifier [99; 97; 102; 233]%N /\
  fst (detectVaraibles (JString (js "{{ " ++ [99; 97; 102; 233] ++ js " }}")%N) []) =
    Normal JNull.
Proof.
  assert (Hb : Forall (fun c => c <> 123%N /\ c <> 125%N) [99; 97; 102; 233]%N)
    by (repeat constructor; discriminate).
  assert (Hu : ~ identifier [99; 97; 102; 233]%N).
  { intros [_ Hw]. inversion Hw as [|? ? _ Hw1]; subst.
    inversion Hw1 as [|? ? _ Hw2]; subst. inversion Hw2 as [|? ? _ Hw3]; subst.
    inversion Hw3 as [|? ? Hc _]; subst. discriminate Hc. }
  split; [exact Hb|]. split; [exact Hu|].
  exact (@non_identifier_ignored [99; 97; 102; 233]%N [] Hb Hu).
Defined.

(** X11: the slice loses nothing: the array that [match] returns is the
    array of the returned names, each wrapped back in [{{ ] and [ }}]. *)
Theorem matches_are_wrapped_names (s : jsstring) (h : heap) (matches : list jsval) :
  fst (RegExp.Symbol_match variableDetectorRegx_literal s) = JArray matches ->
  exists ws,
    fst (detectVaraibles (JString s) h) = Normal (JArray (map JString ws)) /\
    matches = map (fun w => JString (js "{{ " ++ w ++ js " }}")) ws.
Proof.
  destruct (@match_all_sound s 0) as (ws & Hws & Hm).
  rewrite (@detectVaraibles_names s h ws Hws Hm).
  unfold RegExp.Symbol_match.
  cbn [RegExp.global RegExp.source variableDetectorRegx_literal]. rewrite Hm.
  destruct ws as [|w ws]; [discriminate|].
  cbn [fst]. intros [= <-]. exists (w :: ws). split; [reflexivity|].
  now rewrite map_map.
Qed.

Lemma matches_are_wrapped_names_witness :
  fst (RegExp.Symbol_match variableDetectorRegx_literal (js "{{ a }}-{{ b }}")) =
    JArray [JString (js "{{ a }}"); JString (js "{{ b }}")] /\
  exists ws,
    fst (detectVaraibles (JString (js "{{ a }}-{{ b }}")) []) =
      Normal (JArray (map JString ws)) /\
    [JString (js "{{ a }}"); JString (js "{{ b }}")] =
      map (fun w => JString (js "{{ " ++ w ++ js " }}")) ws.
Proof.
  assert (H : fst (RegExp.Symbol_match variableDetectorRegx_literal
                     (js "{{ a }}-{{ b }}")) =
              JArray [JString (js "{{ a }}"); JString (js "{{ b }}")])
    by (vm_compute; reflexivity).
  split; [exact H | exact (@matches_are_wrapped_names _ [] _ H)].
Defined.

Lemma listener_console (e : Event) (w : world) :
  console (snd (listener e w)) = console w ++ detection (target_value e).
Proof.
  unfold listener, detection.
  rewrite (detectVaraibles_heap (target_value e) [] (objects w)).
  destruct (detectVaraibles (target_value e) (objects w)) as [[variables|err] h'];
    cbn; [reflexivity | now rewrite app_nil_r].
Qed.

Lemma script_listeners (el : element) :
  script (Some (mkElement [])) = Normal el ->
  listeners el = [(js "input", listener)].
Proof. intros [= <-]. reflexivity. Qed.

(** X8: on the element on which the script registered its listener, the
    [input] events of a sequence of contents add to the console, in the
    order of the events, one entry for each content that is a string, the
    label ["detection: "] with what the extractor returns on that content
    alone, and nothing for a content on which the extractor throws; what is
    logged for one event does not depend on the events before it. *)
Theorem input_events_console (el : element) (values : list jsval) (w : world) :
  script (Some (mkElement [])) = Normal el ->
  console (input_events el values w) = console w ++ flat_map detection values.
Proof.
  intros Hel. apply script_listeners in Hel. unfold input_events.
  revert w. induction values as [|v values IH]; intros w.
  - cbn. now rewrite app_nil_r.
  - cbn [fold_left flat_map]. rewrite IH.
    unfold dispatchEvent. rewrite Hel. cbn [invoke type].
    destruct (list_eq_dec N.eq_dec (js "input") (js "input")) as [_|Hne];
      [|now destruct Hne].
    cbn [invoke]. rewrite listener_console. cbn [target_value].
    now rewrite <- app_assoc.
Qed.

Lemma input_events_console_witness :
  script (Some (mkElement [])) =
    Normal (addEventListener (mkElement []) (js "input") listener) /\
  console (input_events (addEventListener (mkElement []) (js "input") listener)
             [JString (js "Hi"); JNull; JString (js "Hi {{ you }}")]
             (mkWorld [] [])) =
  [[JString (js "detection: "); JNull];
   [JString (js "detection: "); JArray [JString (js "you")]]].
Proof.
  split; [reflexivity|].
  exact (@input_events_console
           (addEventListener (mkElement []) (js "input") listener)
           [JString (js "Hi"); JNull; JString (js "Hi {{ you }}")]
           (mkWorld [] []) eq_refl).
Defined.

(** X9: the listener is registered for [input] only: an event of another
    type on the element changes neither the console nor the objects. *)
Theorem other_events_ignored (el : element) (e : Event) (w : world) :
  script (Some (mkElement [])) = Normal el ->
  type e <> js "input" ->
  dispatchEvent el e w = w.
Proof.
  intros Hel Hty. apply script_listeners in Hel.
  unfold dispatchEvent. rewrite Hel. cbn [invoke].
  destruct (list_eq_dec N.eq_dec (js "input") (type e)) as [Heq|_];
    [now destruct Hty | reflexivity].
Qed.

Lemma other_events_ignored_witness :
  script (Some (mkElement [])) =
    Normal (addEventListener (mkElement []) (js "input") listener) /\
  type (mkEvent (js "change") (JString (js "{{ a }}"))) <> js "input" /\
  dispatchEvent (addEventListener (mkElement []) (js "input") listener)
    (mkEvent (js "change") (JString (js "{{ a }}"))) (mkWorld [] []) = mkWorld [] [].
Proof.
  assert (Hty : type (mkEvent (js "change") (JString (js "{{ a }}"))) <> js "input")
    by (cbn; discriminate).
  split; [reflexivity|]. split; [exact Hty|].
  exact (@other_events_ignored _ _ (mkWorld [] []) eq_refl Hty).
Defined.

(** Without an element of the id [text-editor] the script stops with a
    TypeError and no listener is registered. *)
Example script_without_element : script None = Throw TypeError.
Proof. reflexivity. Qed.

End Further.
